(** * LetRecovery website: theme resolution and media-embed lifecycle

    A shallow embedding of [src/hooks/useTheme.tsx] (the [ThemeProvider]
    component and the [useTheme] accessor) and of the player effect of
    [src/pages/Home.tsx], together with the properties the specification
    states about them.

    Conventions of the embedding:
    - a JavaScript call either completes normally or throws; this is the
      [completion] type, with a bind that propagates a throw;
    - [localStorage] is a finite map from keys to strings whose [getItem]
      and [setItem] may throw (storage blocked, quota exceeded);
    - React state cells ([useState]), the effect dependency array and the
      cleanup closure returned by the effect are fields of one record;
    - the DOM pieces the component touches (the class list of the root
      element, the listeners of the media query list) are fields of the
      same record, since the component is the only code of the site that
      touches them. *)

From stdpp Require Import base gmap sets strings list.

Open Scope string_scope.

(** ** JavaScript completions *)

Module Js.

Inductive exn : Type :=
| DOMException (name : string)
| Error (message : string).

Inductive completion (A : Type) : Type :=
| Normal (a : A)
| Throw (e : exn).
Arguments Normal {A} a.
Arguments Throw {A} e.

Definition bind {A B : Type} (c : completion A) (k : A → completion B)
  : completion B :=
  match c with
  | Normal a => k a
  | Throw e => Throw e
  end.

Definition completes {A : Type} (c : completion A) : Prop :=
  ∃ a, c = Normal a.

Definition throws {A : Type} (c : completion A) : Prop :=
  ∃ e, c = Throw e.

End Js.

#[global] Instance completion_bind : MBind Js.completion :=
  λ A B k c, Js.bind c k.
#[global] Instance completion_ret : MRet Js.completion :=
  λ A a, Js.Normal a.

(** ** Web Storage *)

Module Storage.
Import Js.

(** [items] is the content; [read_fault] and [write_fault], when set,
    are the exception the browser raises on [getItem], respectively
    [setItem]. *)
Record t : Type := Make {
  items : gmap string string;
  read_fault : option exn;
  write_fault : option exn
}.

Definition healthy (m : gmap string string) : t :=
  {| items := m; read_fault := None; write_fault := None |}.

Definition getItem (ls : t) (key : string) : completion (option string) :=
  match read_fault ls with
  | Some e => Throw e
  | None => Normal (items ls !! key)
  end.

Definition setItem (ls : t) (key value : string) : completion t :=
  match write_fault ls with
  | Some e => Throw e
  | None =>
      Normal {| items := <[key := value]> (items ls);
                read_fault := read_fault ls;
                write_fault := write_fault ls |}
  end.

End Storage.

(** ** The theme resolver, [hooks/useTheme.tsx] *)

Module Theme.
Import Js.

(** [type Theme = 'light' | 'dark' | 'system'] *)
Inductive Theme : Type := light | dark | system.

#[global] Instance Theme_eq_dec : EqDecision Theme.
Proof. solve_decision. Defined.

(** The string literal a [Theme] value is at run time. *)
Definition literal (t : Theme) : string :=
  match t with
  | light => "light"
  | dark => "dark"
  | system => "system"
  end.

Definition THEME_STORAGE_KEY : string := "letrecovery-theme".

(** The narrowing test of the state initializer,
    [stored === 'light' || stored === 'dark' || stored === 'system'],
    returning the value [stored] is narrowed to. *)
Definition narrow (stored : string) : option Theme :=
  if String.eqb stored "light" then Some light
  else if String.eqb stored "dark" then Some dark
  else if String.eqb stored "system" then Some system
  else None.

(** The lazy initializer of [useState<Theme>].  [window] is [None] when
    [typeof window === 'undefined']; otherwise it carries the
    [localStorage] of the page. *)
Definition initialTheme (window : option Storage.t) : completion Theme :=
  match window with
  | Some localStorage =>
      stored ← Storage.getItem localStorage THEME_STORAGE_KEY ;
      Normal (match stored with
              | Some s =>
                  match narrow s with
                  | Some t => t
                  | None => system
                  end
              | None => system
              end)
  | None => Normal system
  end.

(** The provider together with the parts of the page it acts on. *)
Record App : Type := MkApp {
  theme : Theme;                      (* useState *)
  resolvedTheme : Theme;              (* useState, declared 'light' | 'dark' *)
  deps : option Theme;                (* [theme] of the last effect run *)
  cleanupFn : option nat;             (* listener the cleanup removes *)
  localStorage : Storage.t;
  prefersDark : bool;                 (* matchMedia(...).matches *)
  classList : gset string;            (* document.documentElement.classList *)
  listeners : list (nat * Theme);     (* 'change' listeners: id, captured theme *)
  next_listener : nat;                (* next closure identity *)
  resolve_calls : nat                 (* number of updateResolvedTheme runs *)
}.

Definition setThemeState (t : Theme) (s : App) : App :=
  MkApp t (resolvedTheme s) (deps s) (cleanupFn s) (localStorage s)
        (prefersDark s) (classList s) (listeners s) (next_listener s)
        (resolve_calls s).

Definition setResolvedTheme (r : Theme) (s : App) : App :=
  MkApp (theme s) r (deps s) (cleanupFn s) (localStorage s)
        (prefersDark s) (classList s) (listeners s) (next_listener s)
        (resolve_calls s).

Definition with_localStorage (ls : Storage.t) (s : App) : App :=
  MkApp (theme s) (resolvedTheme s) (deps s) (cleanupFn s) ls
        (prefersDark s) (classList s) (listeners s) (next_listener s)
        (resolve_calls s).

Definition with_prefersDark (b : bool) (s : App) : App :=
  MkApp (theme s) (resolvedTheme s) (deps s) (cleanupFn s) (localStorage s)
        b (classList s) (listeners s) (next_listener s) (resolve_calls s).

Definition with_classList (cl : gset string) (s : App) : App :=
  MkApp (theme s) (resolvedTheme s) (deps s) (cleanupFn s) (localStorage s)
        (prefersDark s) cl (listeners s) (next_listener s) (resolve_calls s).

Definition classList_add (c : string) (s : App) : App :=
  with_classList ({[ c ]} ∪ classList s) s.

Definition classList_remove (c : string) (s : App) : App :=
  with_classList (classList s ∖ {[ c ]}) s.

Definition count_resolve (s : App) : App :=
  MkApp (theme s) (resolvedTheme s) (deps s) (cleanupFn s) (localStorage s)
        (prefersDark s) (classList s) (listeners s) (next_listener s)
        (S (resolve_calls s)).

(** The global dark-mode marker. *)
Definition marker (s : App) : bool := bool_decide ("dark" ∈ classList s).

(** The value [resolved] of [updateResolvedTheme], for the [theme] the
    closure captured and the media query result at the time of the call. *)
Definition resolve (theme : Theme) (matches : bool) : Theme :=
  if decide (theme = system) then (if matches then dark else light)
  else theme.

(** [updateResolvedTheme], a closure over [theme] and [root]. *)
Definition updateResolvedTheme (theme : Theme) (s : App) : App :=
  let resolved := resolve theme (prefersDark s) in
  let s := setResolvedTheme resolved (count_resolve s) in
  if decide (resolved = dark) then classList_add "dark" s
  else classList_remove "dark" s.

(** [handleChange], a closure over [theme]. *)
Definition handleChange (theme : Theme) (s : App) : App :=
  if decide (theme = system) then updateResolvedTheme theme s else s.

(** [mediaQuery.addEventListener('change', handleChange)] *)
Definition addEventListener (captured : Theme) (s : App) : App :=
  MkApp (theme s) (resolvedTheme s) (deps s) (Some (next_listener s))
        (localStorage s) (prefersDark s) (classList s)
        (listeners s ++ [(next_listener s, captured)])
        (S (next_listener s)) (resolve_calls s).

(** The cleanup the effect returns:
    [mediaQuery.removeEventListener('change', handleChange)]. *)
Definition cleanup (s : App) : App :=
  match cleanupFn s with
  | Some id =>
      MkApp (theme s) (resolvedTheme s) (deps s) None (localStorage s)
            (prefersDark s) (classList s)
            (filter (λ l, l.1 ≠ id) (listeners s))
            (next_listener s) (resolve_calls s)
  | None => s
  end.

(** The body of [useEffect(..., [theme])]. *)
Definition effect (s : App) : App :=
  let t := theme s in
  let s := updateResolvedTheme t s in
  let s := addEventListener t s in
  MkApp (theme s) (resolvedTheme s) (Some t) (cleanupFn s) (localStorage s)
        (prefersDark s) (classList s) (listeners s) (next_listener s)
        (resolve_calls s).

(** [setTheme]: the state update is queued before [setItem] runs, so
    it is kept when [setItem] throws. *)
Definition setTheme (newTheme : Theme) (s : App) : App * completion unit :=
  let s := setThemeState newTheme s in
  match Storage.setItem (localStorage s) THEME_STORAGE_KEY (literal newTheme) with
  | Normal ls => (with_localStorage ls s, Normal tt)
  | Throw e => (s, Throw e)
  end.

(** *** React's part *)

(** The first render of [ThemeProvider]: both [useState] cells are
    initialized, no effect has run yet. *)
Definition ThemeProvider (ls : Storage.t) (matches : bool)
    (classes : gset string) : completion App :=
  t ← initialTheme (Some ls);
  Normal (MkApp t light None None ls matches classes [] 0 0).

(** After a render React runs the effect when it has not run yet or
    when [theme] differs from the dependency of its last run, the
    cleanup of the previous run first. *)
Definition flushEffects (s : App) : App :=
  if decide (deps s = Some (theme s)) then s else effect (cleanup s).

(** The media query list delivers a 'change' event to its listeners in
    the order they were added. *)
Definition dispatchChange (s : App) : App :=
  foldl (λ acc l, handleChange l.2 acc) s (listeners s).

Inductive event : Type :=
| Commit                        (* effects of the first render *)
| SetTheme (newTheme : Theme)   (* a consumer calls setTheme *)
| ColorSchemeChange (dark : bool). (* the OS signal changes *)

(** One turn of the event loop.  A [setTheme] call is followed by the
    render it schedules and by the effects of that render before the next
    event is delivered; a 'change' event records the new OS signal and
    runs the listeners. *)
Definition step (e : event) (s : App) : App :=
  match e with
  | Commit => flushEffects s
  | SetTheme t => flushEffects (setTheme t s).1
  | ColorSchemeChange b => dispatchChange (with_prefersDark b s)
  end.

Inductive reachable : App → Prop :=
| reachable_render ls matches classes s :
    ThemeProvider ls matches classes = Normal s → reachable s
| reachable_step e s :
    reachable s → reachable (step e s).

(** *** The context and its accessor *)

Record ThemeContextType : Type := {
  ctx_theme : Theme;
  ctx_setTheme : Theme → App → App * completion unit;
  ctx_resolvedTheme : Theme
}.

(** The [value] the provider passes down. *)
Definition provider_value (s : App) : ThemeContextType :=
  {| ctx_theme := theme s;
     ctx_setTheme := setTheme;
     ctx_resolvedTheme := resolvedTheme s |}.

(** [useContext(ThemeContext)] for a consumer whose enclosing providers
    have the given values, innermost first; the context was created with
    default [undefined]. *)
Definition useContext (enclosing : list ThemeContextType)
  : option ThemeContextType :=
  head enclosing.

Definition useTheme (enclosing : list ThemeContextType)
  : completion ThemeContextType :=
  match useContext enclosing with
  | None => Throw (Error "useTheme must be used within a ThemeProvider")
  | Some context => Normal context
  end.

(** *** The invariant of the provider *)

(** Before the first commit nothing is registered; afterwards exactly the
    listener of the last effect run is, it captured the current preference,
    and the resolved theme and the marker agree with the preference and the
    OS signal. *)
Definition committed (s : App) : Prop :=
  ∃ id, deps s = Some (theme s) ∧ cleanupFn s = Some id
        ∧ listeners s = [(id, theme s)]
        ∧ resolvedTheme s = resolve (theme s) (prefersDark s)
        ∧ ("dark" ∈ classList s ↔ resolvedTheme s = dark).

Definition pristine (s : App) : Prop :=
  deps s = None ∧ cleanupFn s = None ∧ listeners s = [].

Definition inv (s : App) : Prop :=
  resolvedTheme s ≠ system ∧ (pristine s ∨ committed s).

(** What the cleanup needs: the registered listener is the only one. *)
Definition registered (s : App) : Prop :=
  (cleanupFn s = None ∧ listeners s = [])
  ∨ (∃ id t, cleanupFn s = Some id ∧ listeners s = [(id, t)]).

End Theme.

(** ** The media embed, the effect of [pages/Home.tsx] *)

Module Home.

(** The players the library has constructed so far.  A player is
    identified by its construction rank; [live] maps a player that was
    constructed and not destroyed to the container element it renders
    into. *)
Record Players : Type := MkPlayers {
  constructed : nat;
  live : gmap nat nat;
  destroyed : gset nat
}.

(** The two refs of one [Home] instance. *)
Record Refs : Type := MkRefs {
  artRef : option nat;       (* the container element, null when detached *)
  playerRef : option nat     (* the player handle, null when none *)
}.

(** [new Artplayer({ container, ... })] *)
Definition new_Artplayer (container : nat) (w : Players) : nat * Players :=
  (constructed w,
   MkPlayers (S (constructed w))
             (<[constructed w := container]> (live w))
             (destroyed w)).

(** [player.destroy()] *)
Definition destroy (player : nat) (w : Players) : Players :=
  MkPlayers (constructed w) (delete player (live w))
            ({[ player ]} ∪ destroyed w).

(** The body of [useEffect(..., [])]:
    [if (artRef.current && !playerRef.current) playerRef.current = new Artplayer(...)]. *)
Definition effect (r : Refs) (w : Players) : Refs * Players :=
  match artRef r, playerRef r with
  | Some container, None =>
      let '(player, w) := new_Artplayer container w in
      (MkRefs (artRef r) (Some player), w)
  | _, _ => (r, w)
  end.

(** The cleanup the effect returns. *)
Definition cleanup (r : Refs) (w : Players) : Refs * Players :=
  match playerRef r with
  | Some player => (MkRefs (artRef r) None, destroy player w)
  | None => (r, w)
  end.

(** The page: the players and the [Home] instance that is mounted, if
    one is. *)
Record Page : Type := MkPage {
  players : Players;
  home : option Refs
}.

Inductive event : Type :=
| Mount (container : nat)   (* the route renders Home; its div is [container] *)
| RunEffect                 (* the effect body runs once more *)
| RunCleanup                (* the cleanup runs while the view stays *)
| Unmount.                  (* the route discards Home *)

Definition step (e : event) (p : Page) : Page :=
  match e, home p with
  | Mount container, None =>
      (* both refs start null; the div is attached before effects run *)
      let '(r, w) := effect (MkRefs (Some container) None) (players p) in
      MkPage w (Some r)
  | RunEffect, Some r =>
      let '(r, w) := effect r (players p) in MkPage w (Some r)
  | RunCleanup, Some r =>
      let '(r, w) := cleanup r (players p) in MkPage w (Some r)
  | Unmount, Some r =>
      let '(_, w) := cleanup r (players p) in MkPage w None
  | _, _ => p
  end.

Definition initial : Page := MkPage (MkPlayers 0 ∅ ∅) None.

Inductive reachable : Page → Prop :=
| reachable_initial : reachable initial
| reachable_step e p : reachable p → reachable (step e p).

(** The handle the mounted view holds, if any. *)
Definition held (p : Page) : option nat :=
  r ← home p; playerRef r.

(** The invariant of the page: the live players are exactly the one the
    mounted view holds, rendering into its container, and every player
    that is or was live has a rank below the construction count. *)
Definition inv (p : Page) : Prop :=
  match home p with
  | None => live (players p) = ∅
  | Some r =>
      ∃ container, artRef r = Some container
        ∧ live (players p) =
            match playerRef r with
            | Some player => {[ player := container ]}
            | None => ∅
            end
  end
  ∧ (∀ h, h ∈ destroyed (players p) → h < constructed (players p))
  ∧ (∀ h c, live (players p) !! h = Some c → h < constructed (players p)).

End Home.

(** ** Concrete environments used to exercise the statements *)

Module Examples.
Import Js Theme.

Definition SecurityError : exn := DOMException "SecurityError".
Definition QuotaExceededError : exn := DOMException "QuotaExceededError".

(** Storage the browser refuses to open. *)
Definition blocked : Storage.t :=
  Storage.Make ∅ (Some SecurityError) (Some SecurityError).

(** Storage that can be read and is full. *)
Definition full : Storage.t :=
  Storage.Make ∅ None (Some QuotaExceededError).

Definition stored (value : string) : Storage.t :=
  Storage.healthy {[ THEME_STORAGE_KEY := value ]}.

(** First render with an empty, working storage and a light OS. *)
Definition fresh : App :=
  MkApp system light None None (Storage.healthy ∅) false ∅ [] 0 0.

(** First render over the full storage. *)
Definition fresh_full : App :=
  MkApp system light None None full false ∅ [] 0 0.

End Examples.

(** ** Runs of the provider *)

Module Session.
Import Js Theme.

(** The state after the events [es], delivered in order. *)
Definition run (es : list event) (s : App) : App :=
  foldl (λ acc e, step e acc) s es.

(** The preferences selected during [es], in order. *)
Definition selections (es : list event) : list Theme :=
  omap (λ e, match e with SetTheme t => Some t | _ => None end) es.


End Session.

(** ** The navigation bar, [Header] of [components/layout] *)

Module Header.
Import Js Theme.

Inductive Icon : Type := CircleHalf | Moon | Sun | Menu | X.

(** [navItems] *)
Definition navItems : list (string * string) :=
  [("主页", "/"); ("许可证", "/license")].

(** [isActive], a closure over [location]. *)
Definition isActive (pathname path : string) : bool :=
  String.eqb pathname path.

(** [getThemeIcon], a closure over [theme] and [resolvedTheme]. *)
Definition getThemeIcon (theme resolvedTheme : Theme) : Icon :=
  if decide (theme = system) then CircleHalf
  else if decide (resolvedTheme = dark) then Moon else Sun.

Record NavLink : Type := {
  link_name : string;
  link_to : string;
  link_active : bool        (* the 'text-foreground' class *)
}.

Record MenuItem : Type := {
  onClick : App → App * completion unit;
  item_icon : Icon;
  item_label : string;
  item_check : bool         (* the trailing [Check] icon is rendered *)
}.

(** The three [MenuItem]s of a theme menu. *)
Definition themeMenu (theme : Theme)
    (setTheme : Theme → App → App * completion unit) : list MenuItem :=
  [ {| onClick := setTheme light; item_icon := Sun;
       item_label := "浅色模式";
       item_check := bool_decide (theme = light) |};
    {| onClick := setTheme dark; item_icon := Moon;
       item_label := "深色模式";
       item_check := bool_decide (theme = dark) |};
    {| onClick := setTheme system; item_icon := CircleHalf;
       item_label := "跟随系统";
       item_check := bool_decide (theme = system) |} ].

Definition navLinks (pathname : string) : list NavLink :=
  (λ item, {| link_name := item.1; link_to := item.2;
              link_active := isActive pathname item.2 |}) <$> navItems.

(** What one render of the header shows. *)
Record View : Type := {
  desktopNav : list NavLink;
  themeTrigger : Icon;
  desktopThemeMenu : list MenuItem;
  mobileThemeTrigger : Icon;
  mobileThemeMenu : list MenuItem;
  mobileButton : Icon;
  mobileNav : option (list NavLink)   (* rendered when the menu is open *)
}.

(** One render of [Header] for the providers enclosing it, the current
    location and the [mobileMenuOpen] state cell. *)
Definition Header (enclosing : list ThemeContextType) (pathname : string)
    (mobileMenuOpen : bool) : completion View :=
  context ← useTheme enclosing;
  let theme := ctx_theme context in
  let setTheme := ctx_setTheme context in
  let resolvedTheme := ctx_resolvedTheme context in
  Normal {| desktopNav := navLinks pathname;
            themeTrigger := getThemeIcon theme resolvedTheme;
            desktopThemeMenu := themeMenu theme setTheme;
            mobileThemeTrigger := getThemeIcon theme resolvedTheme;
            mobileThemeMenu := themeMenu theme setTheme;
            mobileButton := if mobileMenuOpen then X else Menu;
            mobileNav := if mobileMenuOpen then Some (navLinks pathname)
                         else None |}.

(** The turn of the event loop in which a menu item is clicked: its
    handler runs, then the render it scheduled and the effects of that
    render. *)
Definition click (item : MenuItem) (s : App) : App :=
  flushEffects (onClick item s).1.

End Header.

(** ** The friend links of [Footer] *)

Module Footer.

Inductive node : Type :=
| Anchor (name url : string)
| Divider.

Definition friendLinks : list (string * string) :=
  [("Cloud-PE官网", "https://cloud-pe.cn");
   ("Cloud-PE云盘", "https://pan.sysre.cn")].

(** The callback of [friendLinks.map((link, index) => ...)] for a list
    of [length] links: the anchor, followed by the divider when
    [index < length - 1]. *)
Definition linkSpan (length : Z) (index : nat) (link : string * string)
  : list node :=
  Anchor link.1 link.2
  :: (if bool_decide (Z.of_nat index < length - 1)%Z then [Divider] else []).

Definition linkSpans (links : list (string * string)) : list (list node) :=
  imap (linkSpan (Z.of_nat (length links))) links.

Definition Footer : list (list node) := linkSpans friendLinks.

(** The anchors of [links] with a divider between any two neighbours. *)
Fixpoint separated (links : list (string * string)) : list node :=
  match links with
  | [] => []
  | link :: rest =>
      Anchor link.1 link.2
      :: match rest with
         | [] => []
         | _ :: _ => Divider :: separated rest
         end
  end.

Definition is_Divider (n : node) : bool :=
  match n with Divider => true | Anchor _ _ => false end.

End Footer.

(** ** The first render of [App]: the header under the provider *)

Module Site.
Import Js.

(** [App] renders [ThemeProvider] around the router, whose first child
    is [Header]; the location is [pathname], the mobile menu starts
    closed. *)
Definition App (ls : Storage.t) (matches : bool) (classes : gset string)
    (pathname : string) : completion (Theme.App * Header.View) :=
  s ← Theme.ThemeProvider ls matches classes;
  v ← Header.Header [Theme.provider_value s] pathname false;
  Normal (s, v).

End Site.

(** * Properties of the theme resolver *)

Section ThemeResolver.
Import Js Theme.

(** ** Elementary facts *)

Lemma narrow_literal (p : Theme) : narrow (literal p) = Some p.
Proof. by destruct p. Qed.

Lemma narrow_Some (s : string) (p : Theme) : narrow s = Some p → s = literal p.
Proof.
  unfold narrow.
  destruct (String.eqb_spec s "light") as [->|_]; [by intros [= <-]|].
  destruct (String.eqb_spec s "dark") as [->|_]; [by intros [= <-]|].
  destruct (String.eqb_spec s "system") as [->|_]; [by intros [= <-]|].
  done.
Qed.

Lemma narrow_None (s : string) :
  s ≠ "light" → s ≠ "dark" → s ≠ "system" → narrow s = None.
Proof.
  intros Hl Hd Hs. unfold narrow.
  destruct (String.eqb_spec s "light"); [done|].
  destruct (String.eqb_spec s "dark"); [done|].
  by destruct (String.eqb_spec s "system").
Qed.

Lemma resolve_not_system (t : Theme) (b : bool) : resolve t b ≠ system.
Proof. by destruct t, b. Qed.

Lemma resolve_explicit (t : Theme) (b : bool) : t ≠ system → resolve t b = t.
Proof. by destruct t. Qed.

Lemma updateResolvedTheme_resolved (t : Theme) (s : App) :
  resolvedTheme (updateResolvedTheme t s) = resolve t (prefersDark s).
Proof. unfold updateResolvedTheme. by case_decide. Qed.

Lemma updateResolvedTheme_marker (t : Theme) (s : App) :
  "dark" ∈ classList (updateResolvedTheme t s)
  ↔ resolvedTheme (updateResolvedTheme t s) = dark.
Proof.
  unfold updateResolvedTheme. case_decide as Hd; simpl.
  - set_solver.
  - split; [|done]. intros [_ Hn]%elem_of_difference.
    by destruct Hn; apply elem_of_singleton.
Qed.

Lemma updateResolvedTheme_frame (t : Theme) (s : App) :
  let s' := updateResolvedTheme t s in
  theme s' = theme s ∧ deps s' = deps s ∧ cleanupFn s' = cleanupFn s
  ∧ localStorage s' = localStorage s ∧ prefersDark s' = prefersDark s
  ∧ listeners s' = listeners s ∧ next_listener s' = next_listener s
  ∧ resolve_calls s' = S (resolve_calls s).
Proof. unfold updateResolvedTheme. by case_decide. Qed.

Lemma handleChange_explicit (t : Theme) (s : App) :
  t ≠ system → handleChange t s = s.
Proof. intros Ht. unfold handleChange. by case_decide. Qed.

(** ** The invariant of the provider *)

Lemma inv_registered (s : App) : inv s → registered s.
Proof.
  intros [_ [(_ & Hc & Hl)|(id & _ & Hc & Hl & _)]]; [by left|].
  right. by exists id, (theme s).
Qed.

Lemma cleanup_listeners (s : App) :
  registered s → listeners (cleanup s) = [] ∧ theme (cleanup s) = theme s
                 ∧ prefersDark (cleanup s) = prefersDark s.
Proof.
  unfold cleanup.
  intros [[Hc Hl]|(id & t & Hc & Hl)]; rewrite Hc; simpl; [done|].
  rewrite Hl, filter_cons_False; [done|]. simpl. by intros H.
Qed.

Lemma effect_cleanup_committed (s : App) :
  registered s → committed (effect (cleanup s)).
Proof.
  intros Hr. destruct (cleanup_listeners s Hr) as (Hl & Ht & Hp).
  unfold effect, addEventListener, committed. simpl.
  destruct (updateResolvedTheme_frame (theme (cleanup s)) (cleanup s))
    as (Ht' & _ & _ & _ & Hp' & Hl' & Hn' & _).
  simpl in *. rewrite Ht', Hl', Hl, Hn'.
  exists (next_listener (cleanup s)). split_and!; try done.
  - by rewrite updateResolvedTheme_resolved, Hp'.
  - apply updateResolvedTheme_marker.
Qed.

Lemma committed_not_system (s : App) : committed s → resolvedTheme s ≠ system.
Proof. intros (_ & _ & _ & _ & -> & _). apply resolve_not_system. Qed.

Lemma flushEffects_inv (s : App) :
  resolvedTheme s ≠ system → registered s →
  (deps s = Some (theme s) → committed s) →
  inv (flushEffects s).
Proof.
  intros Hr Hreg Hc. unfold flushEffects. case_decide as Hd.
  - split; [done|]. right. by apply Hc.
  - pose proof (effect_cleanup_committed s Hreg) as Hcm.
    split; [by apply committed_not_system|by right].
Qed.

Lemma setTheme_fst (t : Theme) (s : App) :
  let s' := (setTheme t s).1 in
  theme s' = t ∧ resolvedTheme s' = resolvedTheme s ∧ deps s' = deps s
  ∧ cleanupFn s' = cleanupFn s ∧ prefersDark s' = prefersDark s
  ∧ classList s' = classList s ∧ listeners s' = listeners s
  ∧ next_listener s' = next_listener s ∧ resolve_calls s' = resolve_calls s.
Proof. unfold setTheme. simpl. by destruct Storage.setItem. Qed.

Lemma step_inv (e : event) (s : App) : inv s → inv (step e s).
Proof.
  intros Hi. pose proof (inv_registered s Hi) as Hreg.
  destruct Hi as [Hr Hpc]. destruct e as [|t|b]; simpl.
  - apply flushEffects_inv; try done.
    intros Hd. destruct Hpc as [(Hn & _)|Hc]; [congruence|done].
  - destruct (setTheme_fst t s) as (Ht & Hrt & Hd & Hcf & Hp & Hcl & Hl & _).
    simpl in *. apply flushEffects_inv.
    + by rewrite Hrt.
    + unfold registered. by rewrite Hcf, Hl.
    + rewrite Hd, Ht. intros Hdt.
      destruct Hpc as [(Hn & _)|(id & Hds & Hc & Hls & Hres & Hm)]; [congruence|].
      assert (theme s = t) as Hts by congruence.
      exists id. rewrite Hd, Ht, Hcf, Hl, Hrt, Hp, Hcl, <- Hts. done.
  - unfold dispatchChange. simpl.
    destruct Hpc as [(Hd & Hc & Hl)|(id & Hd & Hc & Hl & Hres & Hm)].
    + rewrite Hl. simpl. split; [done|]. by left.
    + rewrite Hl. simpl. unfold handleChange. case_decide as Hsys.
      * set (s0 := with_prefersDark b s).
        destruct (updateResolvedTheme_frame (theme s) s0)
          as (Ht' & Hd' & Hc' & _ & Hp' & Hl' & _).
        simpl in *. split.
        { rewrite updateResolvedTheme_resolved. apply resolve_not_system. }
        right. exists id. rewrite Ht', Hd', Hc', Hl', Hp'.
        split_and!; try done.
        { by rewrite updateResolvedTheme_resolved. }
        apply updateResolvedTheme_marker.
      * split; [done|]. right. exists id. simpl. split_and!; try done.
        rewrite Hres. by rewrite !resolve_explicit.
Qed.

Lemma render_inv ls matches classes (s : App) :
  ThemeProvider ls matches classes = Normal s → inv s.
Proof.
  unfold ThemeProvider, mbind, completion_bind, bind.
  destruct (initialTheme (Some ls)); [|done].
  intros [= <-]. split; [done|]. by left.
Qed.

Lemma reachable_inv (s : App) : reachable s → inv s.
Proof.
  induction 1 as [ls m c s H|e s _ IH].
  - by eapply render_inv.
  - by apply step_inv.
Qed.


Lemma flushEffects_frame (s : App) :
  theme (flushEffects s) = theme s
  ∧ localStorage (flushEffects s) = localStorage s
  ∧ prefersDark (flushEffects s) = prefersDark s.
Proof.
  unfold flushEffects. case_decide; [done|].
  unfold effect, addEventListener. simpl.
  destruct (updateResolvedTheme_frame (theme (cleanup s)) (cleanup s))
    as (-> & _ & _ & -> & -> & _).
  unfold cleanup. by destruct (cleanupFn s).
Qed.

Lemma ThemeProvider_readable ls matches classes :
  Storage.read_fault ls = None →
  ThemeProvider ls matches classes =
    Normal (MkApp (match Storage.items ls !! THEME_STORAGE_KEY with
                   | Some v => default system (narrow v)
                   | None => system
                   end) light None None ls matches classes [] 0 0).
Proof.
  intros Hr. unfold ThemeProvider, initialTheme, Storage.getItem.
  rewrite Hr. simpl. by destruct (_ !! _) as [v|]; [destruct (narrow v)|].
Qed.

Lemma ThemeProvider_unreadable ls matches classes (e : exn) :
  Storage.read_fault ls = Some e → ThemeProvider ls matches classes = Throw e.
Proof.
  intros Hr. unfold ThemeProvider, initialTheme, Storage.getItem.
  by rewrite Hr.
Qed.

Lemma ThemeProvider_resolved ls matches classes (s : App) :
  ThemeProvider ls matches classes = Normal s →
  resolvedTheme s = light ∧ localStorage s = ls ∧ prefersDark s = matches
  ∧ classList s = classes ∧ listeners s = [].
Proof.
  unfold ThemeProvider, mbind, completion_bind, bind.
  destruct (initialTheme (Some ls)); [|done]. by intros [= <-].
Qed.

(** ** The claims *)

(** C1. [resolve()], that is [updateResolvedTheme] for the preference [t]
    its closure captured: the Resolved Theme it sets is [t] itself when
    [t] is light or dark, and for system it is dark when the OS signal
    reports dark at the time of the call and light otherwise.  The effect
    runs it for the current preference. *)
Theorem C1_resolve (t : Theme) (s : App) :
  resolvedTheme (updateResolvedTheme t s) =
    match t with
    | light => light
    | dark => dark
    | system => if prefersDark s then dark else light
    end
  ∧ resolvedTheme (effect s) =
      match theme s with
      | light => light
      | dark => dark
      | system => if prefersDark s then dark else light
      end.
Proof.
  split.
  - rewrite updateResolvedTheme_resolved. by destruct t.
  - unfold effect, addEventListener. simpl.
    rewrite updateResolvedTheme_resolved. by destruct (theme s).
Qed.

(** C2. In every reachable state whose preference is light or dark, an OS
    color-scheme change notification changes nothing but the recorded OS
    signal: the Resolved Theme, the class list of the root and so the
    dark-mode marker stay as they are, and [updateResolvedTheme] is not
    run. *)
Theorem C2_explicit_choice_ignores_os (s : App) (b : bool)
    (Hreach : reachable s) (Hexplicit : theme s ≠ system) :
  let s' := step (ColorSchemeChange b) s in
  s' = with_prefersDark b s
  ∧ resolvedTheme s' = resolvedTheme s
  ∧ classList s' = classList s
  ∧ marker s' = marker s
  ∧ resolve_calls s' = resolve_calls s.
Proof.
  assert (step (ColorSchemeChange b) s = with_prefersDark b s) as ->; [|done].
  destruct (reachable_inv s Hreach) as [_ [(_ & _ & Hl)|(id & _ & _ & Hl & _)]];
    simpl; unfold dispatchChange; simpl; rewrite Hl; simpl; [done|].
  by apply handleChange_explicit.
Qed.

Lemma C2_witness :
  let s := step (SetTheme light) (step Commit Examples.fresh) in
  let s' := step (ColorSchemeChange true) s in
  s' = with_prefersDark true s
  ∧ resolvedTheme s' = resolvedTheme s
  ∧ classList s' = classList s
  ∧ marker s' = marker s
  ∧ resolve_calls s' = resolve_calls s.
Proof.
  apply (C2_explicit_choice_ignores_os
           (step (SetTheme light) (step Commit Examples.fresh)) true).
  - do 2 apply reachable_step.
    apply (reachable_render (Storage.healthy ∅) false ∅). reflexivity.
  - vm_compute. discriminate.
Defined.

(** C3 as the specification states it does not hold: a storage error
    raised while the preference is read makes initialization throw, and
    one raised while it is written makes [setTheme] throw. *)
Lemma C3_counterexample :
  ¬ completes (ThemeProvider Examples.blocked false ∅)
  ∧ ThemeProvider Examples.full false ∅ = Normal Examples.fresh_full
  ∧ ¬ completes (setTheme dark Examples.fresh_full).2.
Proof.
  split_and!; [|reflexivity|]; intros [a Ha]; vm_compute in Ha; discriminate.
Qed.

(** C3, amended.  The provider has no handler around its storage calls.
    An error raised by [getItem] propagates out of initialization, so no
    provider state exists.  An error raised by [setItem] propagates out of
    [setTheme] after the in-memory preference has been set: the new
    preference is in force after the following render and the persisted
    copy is untouched.  When storage raises no error both complete
    normally. *)
Theorem C3_storage_errors_propagate :
  (∀ ls matches classes e,
     Storage.read_fault ls = Some e →
     ThemeProvider ls matches classes = Throw e)
  ∧ (∀ p s e,
       Storage.write_fault (localStorage s) = Some e →
       setTheme p s = (setThemeState p s, Throw e)
       ∧ theme (step (SetTheme p) s) = p
       ∧ localStorage (step (SetTheme p) s) = localStorage s)
  ∧ (∀ ls matches classes,
       Storage.read_fault ls = None →
       completes (ThemeProvider ls matches classes))
  ∧ (∀ p s,
       Storage.write_fault (localStorage s) = None →
       (setTheme p s).2 = Normal tt).
Proof.
  split_and!.
  - intros. by apply ThemeProvider_unreadable.
  - intros p s e He.
    assert (setTheme p s = (setThemeState p s, Throw e)) as Hs.
    { unfold setTheme, Storage.setItem. simpl. by rewrite He. }
    simpl. destruct (flushEffects_frame (setTheme p s).1) as (-> & -> & _).
    by rewrite Hs.
  - intros ls matches classes Hr. eexists.
    by apply ThemeProvider_readable.
  - intros p s Hw. unfold setTheme, Storage.setItem. simpl. by rewrite Hw.
Qed.

Lemma C3_witness :
  ThemeProvider Examples.blocked true ∅ = Throw Examples.SecurityError
  ∧ (setTheme dark Examples.fresh_full
       = (setThemeState dark Examples.fresh_full,
          Throw Examples.QuotaExceededError)
     ∧ theme (step (SetTheme dark) Examples.fresh_full) = dark
     ∧ localStorage (step (SetTheme dark) Examples.fresh_full)
         = Examples.full)
  ∧ completes (ThemeProvider (Examples.stored "dark") true ∅)
  ∧ (setTheme dark Examples.fresh).2 = Normal tt.
Proof.
  destruct C3_storage_errors_propagate as (Hinit & Hset & Hok & Hsetok).
  split_and!.
  - apply Hinit. reflexivity.
  - apply (Hset dark Examples.fresh_full). reflexivity.
  - apply (Hset dark Examples.fresh_full Examples.QuotaExceededError).
    reflexivity.
  - apply (Hset dark Examples.fresh_full Examples.QuotaExceededError).
    reflexivity.
  - apply Hok. reflexivity.
  - apply Hsetok. reflexivity.
Defined.

(** C4. When the stored value can be read, initialization completes and
    the preference of the first render is the stored value if that is one
    of the literals light, dark, system, and system if nothing is stored
    or anything else is. *)
Theorem C4_initial_preference (ls : Storage.t) (matches : bool)
    (classes : gset string) (Hread : Storage.read_fault ls = None) :
  ∃ s, ThemeProvider ls matches classes = Normal s
    ∧ (∀ p, Storage.items ls !! THEME_STORAGE_KEY = Some (literal p) →
            theme s = p)
    ∧ (Storage.items ls !! THEME_STORAGE_KEY = None → theme s = system)
    ∧ (∀ v, Storage.items ls !! THEME_STORAGE_KEY = Some v →
            v ≠ "light" → v ≠ "dark" → v ≠ "system" → theme s = system).
Proof.
  eexists. split; [by apply ThemeProvider_readable|]. simpl. split_and!.
  - intros p ->. by rewrite narrow_literal.
  - by intros ->.
  - intros v -> Hl Hd Hs. by rewrite narrow_None.
Qed.

Lemma C4_witness :
  ∃ s, ThemeProvider (Examples.stored "purple") true ∅ = Normal s
    ∧ (∀ p, Storage.items (Examples.stored "purple") !! THEME_STORAGE_KEY
              = Some (literal p) → theme s = p)
    ∧ (Storage.items (Examples.stored "purple") !! THEME_STORAGE_KEY = None →
       theme s = system)
    ∧ (∀ v, Storage.items (Examples.stored "purple") !! THEME_STORAGE_KEY
              = Some v →
            v ≠ "light" → v ≠ "dark" → v ≠ "system" → theme s = system).
Proof.
  apply (C4_initial_preference (Examples.stored "purple") true ∅).
  reflexivity.
Defined.

(** C5. When storage accepts the write, [setTheme p] completes, the
    in-memory preference is [p], the entry under the fixed key reads back
    as the literal of [p], one of light, dark, system, and an
    initialization from that storage yields [p] again. *)
Theorem C5_setTheme_persists (p : Theme) (s : App)
    (Hwrite : Storage.write_fault (localStorage s) = None)
    (Hread : Storage.read_fault (localStorage s) = None) :
  ∃ s', setTheme p s = (s', Normal tt)
    ∧ theme s' = p
    ∧ theme (step (SetTheme p) s) = p
    ∧ localStorage (step (SetTheme p) s) = localStorage s'
    ∧ Storage.getItem (localStorage s') THEME_STORAGE_KEY
        = Normal (Some (literal p))
    ∧ literal p ∈ ["light"; "dark"; "system"]
    ∧ initialTheme (Some (localStorage s')) = Normal p.
Proof.
  assert (∃ s', setTheme p s = (s', Normal tt)
            ∧ theme s' = p
            ∧ Storage.read_fault (localStorage s') = None
            ∧ Storage.items (localStorage s') !! THEME_STORAGE_KEY
                = Some (literal p)) as (s' & Hs & Ht & Hr & Hi).
  { unfold setTheme, Storage.setItem. simpl. rewrite Hwrite.
    eexists. split; [done|]. simpl. split_and!; [done..|].
    apply lookup_insert_eq. }
  exists s'. simpl.
  destruct (flushEffects_frame (setTheme p s).1) as (-> & -> & _).
  rewrite Hs. simpl. split_and!; try done.
  - unfold Storage.getItem. by rewrite Hr, Hi.
  - destruct p; simpl; set_solver.
  - unfold initialTheme, Storage.getItem. rewrite Hr, Hi. simpl.
    by rewrite narrow_literal.
Qed.

Lemma C5_witness :
  ∃ s', setTheme dark Examples.fresh = (s', Normal tt)
    ∧ theme s' = dark
    ∧ theme (step (SetTheme dark) Examples.fresh) = dark
    ∧ localStorage (step (SetTheme dark) Examples.fresh) = localStorage s'
    ∧ Storage.getItem (localStorage s') THEME_STORAGE_KEY
        = Normal (Some (literal dark))
    ∧ literal dark ∈ ["light"; "dark"; "system"]
    ∧ initialTheme (Some (localStorage s')) = Normal dark.
Proof.
  apply (C5_setTheme_persists dark Examples.fresh); reflexivity.
Defined.

(** C6. In every reachable state, the first render included, the Resolved
    Theme is light or dark and not system, and neither a further event
    (commit, [setTheme], OS notification) nor a run of
    [updateResolvedTheme] for any preference makes it system. *)
Theorem C6_resolved_never_system (s : App) (Hreach : reachable s) :
  (resolvedTheme s = light ∨ resolvedTheme s = dark)
  ∧ resolvedTheme s ≠ system
  ∧ (∀ e, resolvedTheme (step e s) ≠ system)
  ∧ (∀ t, resolvedTheme (updateResolvedTheme t s) ≠ system).
Proof.
  pose proof (reachable_inv s Hreach) as Hi.
  split_and!.
  - destruct Hi as [Hr _]. destruct (resolvedTheme s); auto. done.
  - apply Hi.
  - intros e. by apply step_inv.
  - intros t. rewrite updateResolvedTheme_resolved. apply resolve_not_system.
Qed.

Lemma C6_witness :
  let s := step (ColorSchemeChange true) (step Commit Examples.fresh) in
  (resolvedTheme s = light ∨ resolvedTheme s = dark)
  ∧ resolvedTheme s ≠ system
  ∧ (∀ e, resolvedTheme (step e s) ≠ system)
  ∧ (∀ t, resolvedTheme (updateResolvedTheme t s) ≠ system).
Proof.
  apply (C6_resolved_never_system
           (step (ColorSchemeChange true) (step Commit Examples.fresh))).
  do 2 apply reachable_step.
  apply (reachable_render (Storage.healthy ∅) false ∅). reflexivity.
Defined.

(** C8. Running [updateResolvedTheme] twice in a row for the same
    preference, the OS signal unchanged in between, sets the same Resolved
    Theme both times, and the second run leaves the class list of the root
    as the first left it. *)
Theorem C8_resolve_idempotent (t : Theme) (s : App) :
  let s1 := updateResolvedTheme t s in
  let s2 := updateResolvedTheme t s1 in
  resolvedTheme s2 = resolvedTheme s1
  ∧ classList s2 = classList s1
  ∧ theme s2 = theme s1
  ∧ prefersDark s2 = prefersDark s1.
Proof.
  simpl.
  destruct (updateResolvedTheme_frame t (updateResolvedTheme t s))
    as (Ht & _ & _ & _ & Hp & _).
  destruct (updateResolvedTheme_frame t s) as (_ & _ & _ & _ & Hp0 & _).
  simpl in *. split_and!; try done.
  - by rewrite !updateResolvedTheme_resolved, Hp0.
  - unfold updateResolvedTheme at 1. rewrite Hp0.
    unfold updateResolvedTheme.
    case_decide; simpl; [apply set_eq|apply set_eq]; intros x;
      rewrite ?elem_of_union, ?elem_of_difference; tauto.
Qed.

(** C9. The first render exposes light as Resolved Theme whatever is
    stored and whatever the OS reports; with dark stored, the preference
    of that render is dark and a consumer reading the context during it
    gets light as Resolved Theme. *)
Theorem C9_first_render_is_light (ls : Storage.t) (matches : bool)
    (classes : gset string) :
  (∀ s, ThemeProvider ls matches classes = Normal s →
        resolvedTheme s = light
        ∧ ctx_resolvedTheme (provider_value s) = light)
  ∧ (Storage.read_fault ls = None →
     Storage.items ls !! THEME_STORAGE_KEY = Some "dark" →
     ∃ s c, ThemeProvider ls matches classes = Normal s
          ∧ theme s = dark
          ∧ useTheme [provider_value s] = Normal c
          ∧ ctx_theme c = dark
          ∧ ctx_resolvedTheme c = light).
Proof.
  split.
  - intros s Hs. by destruct (ThemeProvider_resolved _ _ _ _ Hs) as [Hl _].
  - intros Hr Hd. eexists _, _.
    split; [by apply ThemeProvider_readable|]. simpl. by rewrite Hd.
Qed.

Lemma C9_witness :
  resolvedTheme
    (MkApp dark light None None (Examples.stored "dark") true ∅ [] 0 0)
    = light
  ∧ ∃ s c, ThemeProvider (Examples.stored "dark") true ∅ = Normal s
         ∧ theme s = dark
         ∧ useTheme [provider_value s] = Normal c
         ∧ ctx_theme c = dark
         ∧ ctx_resolvedTheme c = light.
Proof.
  destruct (C9_first_render_is_light (Examples.stored "dark") true ∅)
    as [Hall Hdark].
  split.
  - apply Hall. reflexivity.
  - apply Hdark; reflexivity.
Defined.

(** The end-to-end scenario of the specification: nothing stored and a
    dark OS; the first commit resolves to dark; [setTheme dark] keeps dark
    and stores the literal; the OS turning light changes nothing; back on
    system the resolver follows the OS again. *)
Example end_to_end :
  let s0 := MkApp system light None None (Storage.healthy ∅) true ∅ [] 0 0 in
  let s1 := step Commit s0 in
  let s2 := step (SetTheme dark) s1 in
  let s3 := step (ColorSchemeChange false) s2 in
  let s4 := step (SetTheme system) s3 in
  let s5 := step (ColorSchemeChange true) s4 in
  ThemeProvider (Storage.healthy ∅) true ∅ = Normal s0
  ∧ (resolvedTheme s1, marker s1) = (dark, true)
  ∧ (theme s2, resolvedTheme s2, marker s2) = (dark, dark, true)
  ∧ Storage.items (localStorage s2) !! THEME_STORAGE_KEY = Some "dark"
  ∧ (resolvedTheme s3, marker s3, resolve_calls s3) = (dark, true, 2)
  ∧ (resolvedTheme s4, marker s4) = (light, false)
  ∧ (resolvedTheme s5, marker s5, length (listeners s5)) = (dark, true, 1).
Proof. vm_compute. by split_and!. Qed.

(** C10. [useTheme] throws when no provider encloses the caller, the
    context then being undefined, and otherwise returns the value of the
    innermost provider: its current theme, [setTheme] and its resolved
    theme. *)
Theorem C10_useTheme :
  useTheme [] = Throw (Error "useTheme must be used within a ThemeProvider")
  ∧ (∀ enclosing,
       match useContext enclosing with
       | None => throws (useTheme enclosing) ∧ ¬ completes (useTheme enclosing)
       | Some context => useTheme enclosing = Normal context
       end)
  ∧ (∀ s outer,
       ∃ c, useTheme (provider_value s :: outer) = Normal c
          ∧ ctx_theme c = theme s
          ∧ ctx_setTheme c = setTheme
          ∧ ctx_resolvedTheme c = resolvedTheme s).
Proof.
  split_and!.
  - done.
  - intros enclosing. unfold useTheme.
    destruct (useContext enclosing); [done|].
    split; [by eexists|]. by intros [c Hc].
  - intros s outer. by eexists.
Qed.

End ThemeResolver.

(** * Properties of the media embed *)

Section MediaEmbed.
Import Home.

Lemma page_initial_inv : inv initial.
Proof. split_and!; [done| |]; intros h; simpl; [set_solver|done]. Qed.

Lemma page_effect_inv (r : Refs) (w : Players) (container : nat) :
  inv (MkPage w (Some r)) → artRef r = Some container →
  inv (MkPage (effect r w).2 (Some (effect r w).1)).
Proof.
  intros (Hlive & Hd & Hl) Ha. simpl in *. destruct Hlive as (c & Hc & Hlv).
  unfold effect. rewrite Ha.
  destruct (playerRef r) as [h|] eqn:Hp; simpl.
  - split_and!; simpl; [|done|done]. exists c. by rewrite Hp.
  - split_and!; simpl.
    + exists container. split; [done|]. by rewrite Hlv, insert_empty.
    + intros h Hh. specialize (Hd h Hh). lia.
    + intros h c'. rewrite Hlv.
      intros [[<- _]|[_ Hne]]%lookup_insert_Some; [lia|done].
Qed.

Lemma page_cleanup_inv (r : Refs) (w : Players) :
  inv (MkPage w (Some r)) →
  inv (MkPage (cleanup r w).2 (Some (cleanup r w).1))
  ∧ inv (MkPage (cleanup r w).2 None).
Proof.
  intros (Hlive & Hd & Hl). unfold cleanup. simpl in *.
  destruct Hlive as (c & Hc & Hlv).
  destruct (playerRef r) as [h|] eqn:Hp; simpl.
  - assert (delete h (live w) = ∅) as Hdel.
    { rewrite Hlv. apply delete_singleton_eq. }
    assert (h < constructed w) as Hh.
    { apply (Hl h c). rewrite Hlv. apply lookup_singleton_eq. }
    split; (split_and!; simpl;
      [ first [ by exists c | done ]
      | intros h' [->%elem_of_singleton|Hin]%elem_of_union; [done|by apply Hd]
      | intros h' c'; by rewrite Hdel ]).
  - split; (split_and!; simpl; [|done|done]); [|done].
    exists c. by rewrite Hp.
Qed.

Lemma page_step_inv (e : event) (p : Page) : inv p → inv (step e p).
Proof.
  destruct p as [w [r|]]; intros Hi; destruct e as [c| | |]; simpl; try done.
  - pose proof Hi as ((c & Hc & _) & _).
    pose proof (page_effect_inv r w c Hi Hc) as H. by destruct (effect r w).
  - destruct (page_cleanup_inv r w Hi) as [H _]. by destruct (cleanup r w).
  - destruct (page_cleanup_inv r w Hi) as [_ H]. by destruct (cleanup r w).
  - destruct Hi as (Hlive & Hd & Hl). simpl in *. split_and!; simpl.
    + exists c. split; [done|]. by rewrite Hlive, insert_empty.
    + intros h Hh. specialize (Hd h Hh). lia.
    + rewrite Hlive. intros h c' [[<- _]|[_ Hne]]%lookup_insert_Some; [lia|done].
Qed.

Lemma page_reachable_inv (p : Page) : reachable p → inv p.
Proof.
  induction 1 as [|e p _ IH]; [apply page_initial_inv|by apply page_step_inv].
Qed.

(** C7. In every reachable state of the page: mounting the host view
    constructs exactly one player, bound to the container of the view,
    whose handle was neither live nor destroyed before; running the effect
    body again while the view holds a handle changes nothing; unmounting
    destroys the held handle and leaves no live player; and no two live
    handles share a container. *)
Theorem C7_one_player_per_mount (p : Page) (Hreach : reachable p) :
  (∀ container, home p = None →
     let p' := step (Mount container) p in
     ∃ h, held p' = Some h
        ∧ live (players p') = {[ h := container ]}
        ∧ constructed (players p') = S (constructed (players p))
        ∧ (h ∉ destroyed (players p'))
        ∧ live (players p) !! h = None)
  ∧ (∀ h, held p = Some h → step RunEffect p = p)
  ∧ (∀ h, held p = Some h →
       let p' := step Unmount p in
       home p' = None
       ∧ live (players p') = ∅
       ∧ h ∈ destroyed (players p')
       ∧ constructed (players p') = constructed (players p))
  ∧ (∀ h1 h2 container,
       live (players p) !! h1 = Some container →
       live (players p) !! h2 = Some container → h1 = h2).
Proof.
  pose proof (page_reachable_inv p Hreach) as (Hlive & Hd & Hl).
  destruct p as [w [r|]]; simpl in *; split_and!; try done.
  all: unfold held; simpl.
  - intros h Hh. destruct Hlive as (c & Hc & _). unfold effect.
    by rewrite Hc, Hh.
  - intros h Hh. destruct Hlive as (c & Hc & Hlv). unfold cleanup.
    rewrite Hh in *. simpl. split_and!; [done| |set_solver|done].
    rewrite Hlv. apply delete_singleton_eq.
  - destruct Hlive as (c & Hc & Hlv). rewrite Hlv.
    destruct (playerRef r) as [h|]; [|done].
    by intros h1 h2 c' [-> _]%lookup_singleton_Some [-> _]%lookup_singleton_Some.
  - intros c _. exists (constructed w). rewrite Hlive.
    split_and!; [done|by rewrite insert_empty|done| |done].
    intros Hin. specialize (Hd _ Hin). lia.
  - by rewrite Hlive.
Qed.

Lemma C7_witness :
  let p := step Unmount (step (Mount 7) initial) in
  (∀ container, home p = None →
     let p' := step (Mount container) p in
     ∃ h, held p' = Some h
        ∧ live (players p') = {[ h := container ]}
        ∧ constructed (players p') = S (constructed (players p))
        ∧ (h ∉ destroyed (players p'))
        ∧ live (players p) !! h = None)
  ∧ (∀ h, held p = Some h → step RunEffect p = p)
  ∧ (∀ h, held p = Some h →
       let p' := step Unmount p in
       home p' = None
       ∧ live (players p') = ∅
       ∧ h ∈ destroyed (players p')
       ∧ constructed (players p') = constructed (players p))
  ∧ (∀ h1 h2 container,
       live (players p) !! h1 = Some container →
       live (players p) !! h2 = Some container → h1 = h2).
Proof.
  apply (C7_one_player_per_mount (step Unmount (step (Mount 7) initial))).
  do 2 apply reachable_step. apply reachable_initial.
Defined.

End MediaEmbed.

(** * Further properties of the theme resolver *)

Section ProviderRuns.
Import Js Theme Session.

Lemma handleChange_frame (t : Theme) (s : App) :
  let s' := handleChange t s in
  theme s' = theme s ∧ deps s' = deps s ∧ cleanupFn s' = cleanupFn s
  ∧ localStorage s' = localStorage s ∧ prefersDark s' = prefersDark s
  ∧ listeners s' = listeners s ∧ next_listener s' = next_listener s.
Proof.
  unfold handleChange. case_decide; [|done].
  destruct (updateResolvedTheme_frame t s) as (?&?&?&?&?&?&?&?). done.
Qed.

Lemma dispatch_fold_frame (ls : list (nat * Theme)) (s : App) :
  let s' := foldl (λ acc l, handleChange l.2 acc) s ls in
  theme s' = theme s ∧ deps s' = deps s ∧ cleanupFn s' = cleanupFn s
  ∧ localStorage s' = localStorage s ∧ prefersDark s' = prefersDark s
  ∧ listeners s' = listeners s ∧ next_listener s' = next_listener s.
Proof.
  revert s. induction ls as [|l ls IH]; intros s; simpl; [done|].
  destruct (IH (handleChange l.2 s)) as (-> & -> & -> & -> & -> & -> & ->).
  apply handleChange_frame.
Qed.

Lemma flushEffects_deps (s : App) :
  deps (flushEffects s) = Some (theme (flushEffects s)).
Proof.
  unfold flushEffects. case_decide; [done|].
  unfold effect, addEventListener. simpl.
  by destruct (updateResolvedTheme_frame (theme (cleanup s)) (cleanup s))
    as (-> & _).
Qed.

(** The storage after one turn. *)
Lemma step_localStorage (e : event) (s : App) :
  localStorage (step e s) =
    match e with
    | SetTheme t =>
        match Storage.write_fault (localStorage s) with
        | None =>
            Storage.Make
              (<[THEME_STORAGE_KEY := literal t]>
                 (Storage.items (localStorage s)))
              (Storage.read_fault (localStorage s)) None
        | Some _ => localStorage s
        end
    | _ => localStorage s
    end.
Proof.
  destruct e as [|t|b]; simpl.
  - apply flushEffects_frame.
  - destruct (flushEffects_frame (setTheme t s).1) as (_ & -> & _).
    unfold setTheme, Storage.setItem. simpl.
    by destruct (Storage.write_fault (localStorage s)) eqn:Hw.
  - unfold dispatchChange.
    by destruct (dispatch_fold_frame (listeners (with_prefersDark b s))
                   (with_prefersDark b s)) as (_ & _ & _ & -> & _).
Qed.

Lemma step_theme (e : event) (s : App) :
  theme (step e s) = match e with SetTheme t => t | _ => theme s end.
Proof.
  destruct e as [|t|b]; simpl.
  - apply flushEffects_frame.
  - destruct (flushEffects_frame (setTheme t s).1) as (-> & _).
    apply setTheme_fst.
  - unfold dispatchChange.
    by destruct (dispatch_fold_frame (listeners (with_prefersDark b s))
                   (with_prefersDark b s)) as (-> & _).
Qed.

Lemma run_cons (e : event) (es : list event) (s : App) :
  run (e :: es) s = run es (step e s).
Proof. done. Qed.

Lemma run_reachable (es : list event) (s : App) :
  reachable s → reachable (run es s).
Proof.
  revert s. induction es as [|e es IH]; intros s Hs; [done|].
  rewrite run_cons. apply IH. by apply reachable_step.
Qed.



(** X2. While the preference is system, after the first effect has run,
    an OS notification makes the Resolved Theme and the marker follow the
    new signal, with one run of [updateResolvedTheme], and leaves the
    preference, the storage and the subscription as they were. *)
Theorem system_follows_os (s : App) (b : bool)
    (Hreach : reachable s) (Hcommitted : deps s ≠ None)
    (Hsystem : theme s = system) :
  let s' := step (ColorSchemeChange b) s in
  resolvedTheme s' = (if b then dark else light)
  ∧ marker s' = b
  ∧ resolve_calls s' = S (resolve_calls s)
  ∧ theme s' = system
  ∧ localStorage s' = localStorage s
  ∧ listeners s' = listeners s.
Proof.
  destruct (reachable_inv s Hreach)
    as [_ [(Hn & _)|(id & _ & _ & Hl & _)]]; [done|].
  simpl. unfold dispatchChange. simpl. rewrite Hl, Hsystem. simpl.
  unfold handleChange. rewrite decide_True by done.
  set (s0 := with_prefersDark b s).
  destruct (updateResolvedTheme_frame system s0)
    as (Ht & _ & _ & Hls & _ & Hli & _ & Hrc).
  simpl in *. rewrite Ht, Hls, Hli, Hrc.
  pose proof (updateResolvedTheme_marker system s0) as Hm.
  rewrite updateResolvedTheme_resolved in *. simpl in *.
  split_and!; try done.
  - unfold marker. destruct b; simpl in *.
    + apply bool_decide_eq_true. by apply Hm.
    + apply bool_decide_eq_false. rewrite Hm. done.
  - by rewrite Hl, Hsystem.
Qed.

Lemma system_follows_os_witness :
  let s := run [Commit] Examples.fresh in
  let s' := step (ColorSchemeChange true) s in
  resolvedTheme s' = dark
  ∧ marker s' = true
  ∧ resolve_calls s' = S (resolve_calls s)
  ∧ theme s' = system
  ∧ localStorage s' = localStorage s
  ∧ listeners s' = listeners s.
Proof.
  apply (system_follows_os (run [Commit] Examples.fresh) true).
  - apply run_reachable.
    apply (reachable_render (Storage.healthy ∅) false ∅). reflexivity.
  - vm_compute. discriminate.
  - reflexivity.
Defined.

(** X3. The provider holds at most one subscription to the media query
    at any time: the listener of the last effect run, which captured the
    current preference.  Running the cleanup of that effect, as React
    does when the provider is discarded, leaves no listener behind. *)
Theorem single_subscription (s : App) (Hreach : reachable s) :
  (length (listeners s) ≤ 1)%nat
  ∧ (∀ l, l ∈ listeners s → l.2 = theme s ∧ cleanupFn s = Some l.1)
  ∧ (deps s ≠ None → length (listeners s) = 1)
  ∧ listeners (cleanup s) = [].
Proof.
  pose proof (reachable_inv s Hreach) as Hi.
  destruct (cleanup_listeners s (inv_registered s Hi)) as (Hcl & _).
  destruct Hi as [_ [(Hn & _ & Hl)|(id & _ & Hc & Hl & _)]];
    rewrite Hl; simpl; split_and!; try done; try lia.
  - by intros l ?%elem_of_nil.
  - by intros l ->%list_elem_of_singleton.
Qed.

Lemma single_subscription_witness :
  let s := run [Commit; SetTheme dark; SetTheme system; SetTheme light]
               Examples.fresh in
  (length (listeners s) ≤ 1)%nat
  ∧ (∀ l, l ∈ listeners s → l.2 = theme s ∧ cleanupFn s = Some l.1)
  ∧ (deps s ≠ None → length (listeners s) = 1)
  ∧ listeners (cleanup s) = [].
Proof.
  apply (single_subscription
           (run [Commit; SetTheme dark; SetTheme system; SetTheme light]
                Examples.fresh)).
  apply run_reachable.
  apply (reachable_render (Storage.healthy ∅) false ∅). reflexivity.
Defined.

Lemma updateResolvedTheme_other_classes (t : Theme) (s : App) (c : string) :
  c ≠ "dark" → c ∈ classList (updateResolvedTheme t s) ↔ c ∈ classList s.
Proof.
  intros Hc. unfold updateResolvedTheme. case_decide; simpl.
  - rewrite elem_of_union, elem_of_singleton. tauto.
  - rewrite elem_of_difference, elem_of_singleton. tauto.
Qed.

Lemma handleChange_other_classes (t : Theme) (s : App) (c : string) :
  c ≠ "dark" → c ∈ classList (handleChange t s) ↔ c ∈ classList s.
Proof.
  intros Hc. unfold handleChange. case_decide; [|done].
  by apply updateResolvedTheme_other_classes.
Qed.

Lemma dispatch_fold_other_classes (ls : list (nat * Theme)) (s : App)
    (c : string) :
  c ≠ "dark" →
  c ∈ classList (foldl (λ acc l, handleChange l.2 acc) s ls)
  ↔ c ∈ classList s.
Proof.
  intros Hc. revert s. induction ls as [|l ls IH]; intros s; simpl; [done|].
  rewrite IH. by apply handleChange_other_classes.
Qed.

Lemma cleanup_classList (s : App) : classList (cleanup s) = classList s.
Proof. unfold cleanup. by destruct (cleanupFn s). Qed.

Lemma flushEffects_other_classes (s : App) (c : string) :
  c ≠ "dark" → c ∈ classList (flushEffects s) ↔ c ∈ classList s.
Proof.
  intros Hc. unfold flushEffects. case_decide; [done|].
  unfold effect, addEventListener. simpl.
  rewrite updateResolvedTheme_other_classes by done.
  by rewrite cleanup_classList.
Qed.

Lemma step_other_classes (e : event) (s : App) (c : string) :
  c ≠ "dark" → c ∈ classList (step e s) ↔ c ∈ classList s.
Proof.
  intros Hc. destruct e as [|t|b]; simpl.
  - by apply flushEffects_other_classes.
  - rewrite flushEffects_other_classes by done.
    by destruct (setTheme_fst t s) as (_ & _ & _ & _ & _ & -> & _).
  - unfold dispatchChange. by rewrite dispatch_fold_other_classes.
Qed.

(** X4. Of the classes of the root element the provider only ever adds
    or removes dark: whatever the events, any other class is on the root
    afterwards exactly if it was there before. *)
Theorem only_dark_class_is_touched (es : list event) (s : App) (c : string)
    (Hother : c ≠ "dark") :
  c ∈ classList (run es s) ↔ c ∈ classList s.
Proof.
  revert s. induction es as [|e es IH]; intros s; [done|].
  rewrite run_cons, IH. by apply step_other_classes.
Qed.

Lemma only_dark_class_is_touched_witness :
  "no-js" ∈ classList
      (run [Commit; SetTheme dark; ColorSchemeChange true; SetTheme light]
           (MkApp system light None None (Storage.healthy ∅) false
                  {[ "no-js" ]} [] 0 0))
  ↔ "no-js" ∈ classList
      (MkApp system light None None (Storage.healthy ∅) false
             {[ "no-js" ]} [] 0 0).
Proof.
  apply (only_dark_class_is_touched
           [Commit; SetTheme dark; ColorSchemeChange true; SetTheme light]
           (MkApp system light None None (Storage.healthy ∅) false
                  {[ "no-js" ]} [] 0 0) "no-js").
  discriminate.
Defined.

Lemma storage_discipline_faults (es : list event) (s : App) :
  Storage.read_fault (localStorage (run es s))
    = Storage.read_fault (localStorage s)
  ∧ Storage.write_fault (localStorage (run es s))
    = Storage.write_fault (localStorage s).
Proof.
  revert s. induction es as [|e es IH]; intros s; [done|].
  rewrite run_cons. destruct (IH (step e s)) as [-> ->].
  rewrite step_localStorage. destruct e as [|t|b]; try done.
  by destruct (Storage.write_fault (localStorage s)) eqn:Hw.
Qed.

(** X5. Whatever the events, the provider writes to storage under its
    own key only, and only literals of the three preferences; every other
    entry and the way the storage fails stay as they were, and a storage
    that rejects writes is left exactly as it was. *)
Theorem storage_discipline (es : list event) (s : App) :
  let before := localStorage s in
  let after := localStorage (run es s) in
  Storage.read_fault after = Storage.read_fault before
  ∧ Storage.write_fault after = Storage.write_fault before
  ∧ (∀ key, key ≠ THEME_STORAGE_KEY →
       Storage.items after !! key = Storage.items before !! key)
  ∧ (Storage.items after !! THEME_STORAGE_KEY
       = Storage.items before !! THEME_STORAGE_KEY
     ∨ ∃ p, Storage.items after !! THEME_STORAGE_KEY = Some (literal p))
  ∧ (is_Some (Storage.write_fault before) → after = before).
Proof.
  simpl. revert s. induction es as [|e es IH]; intros s.
  { split_and!; auto. }
  rewrite run_cons.
  destruct (IH (step e s)) as (Hr & Hw & Hk & Hv & Hf).
  rewrite Hr, Hw. clear Hr Hw.
  assert (Storage.read_fault (localStorage (step e s))
            = Storage.read_fault (localStorage s)
          ∧ Storage.write_fault (localStorage (step e s))
            = Storage.write_fault (localStorage s)
          ∧ (∀ key, key ≠ THEME_STORAGE_KEY →
               Storage.items (localStorage (step e s)) !! key
               = Storage.items (localStorage s) !! key)
          ∧ (Storage.items (localStorage (step e s)) !! THEME_STORAGE_KEY
               = Storage.items (localStorage s) !! THEME_STORAGE_KEY
             ∨ ∃ p, Storage.items (localStorage (step e s))
                      !! THEME_STORAGE_KEY = Some (literal p))
          ∧ (is_Some (Storage.write_fault (localStorage s)) →
             localStorage (step e s) = localStorage s))
    as (Hr1 & Hw1 & Hk1 & Hv1 & Hf1).
  { rewrite step_localStorage. destruct e as [|t|b]; try by split_and!; auto.
    destruct (Storage.write_fault (localStorage s)) as [x|] eqn:Hwf; simpl.
    - split_and!; auto.
    - split_and!; auto.
      + intros key Hkey. by apply lookup_insert_ne.
      + right. exists t. apply lookup_insert_eq.
      + by intros [? ?]. }
  split_and!; try done.
  - intros key Hkey. by rewrite Hk, Hk1.
  - destruct Hv as [->|?]; [done|by right].
  - intros Hfault. rewrite Hf, Hf1; [done..|]. by rewrite Hw1.
Qed.

Lemma last_selection_step (e : event) (es : list event) (t : Theme) :
  default (match e with SetTheme t' => t' | _ => t end) (last (selections es))
  = default t (last (selections (e :: es))).
Proof.
  unfold selections. destruct e as [|t'|b]; simpl; try done.
  rewrite last_cons. by destruct (last _).
Qed.

(** X6. The preference changes by selection only: after any events it is
    the last preference selected during them, or the one before them
    when none was selected; commits and OS notifications never change
    it. *)
Theorem preference_is_last_selection (es : list event) (s : App) :
  theme (run es s) = default (theme s) (last (selections es)).
Proof.
  revert s. induction es as [|e es IH]; intros s; [done|].
  rewrite run_cons, IH, step_theme. apply last_selection_step.
Qed.

Lemma step_persisted (e : event) (s : App) :
  Storage.write_fault (localStorage s) = None →
  Storage.items (localStorage s) !! THEME_STORAGE_KEY
    = Some (literal (theme s)) →
  Storage.write_fault (localStorage (step e s)) = None
  ∧ Storage.items (localStorage (step e s)) !! THEME_STORAGE_KEY
      = Some (literal (theme (step e s))).
Proof.
  intros Hw Hi. rewrite step_localStorage, step_theme.
  destruct e as [|t|b]; try done.
  rewrite Hw. simpl. split; [done|]. apply lookup_insert_eq.
Qed.

Lemma run_persisted (es : list event) (s : App) :
  Storage.write_fault (localStorage s) = None →
  Storage.items (localStorage s) !! THEME_STORAGE_KEY
    = Some (literal (theme s)) →
  Storage.items (localStorage (run es s)) !! THEME_STORAGE_KEY
    = Some (literal (theme (run es s))).
Proof.
  revert s. induction es as [|e es IH]; intros s Hw Hi; [done|].
  rewrite run_cons. destruct (step_persisted e s Hw Hi). by apply IH.
Qed.

(** X7. With a storage that accepts writes, after any events during
    which a preference was selected the persisted value is the literal
    of the current preference; if the storage can be read as well, a new
    provider over it starts with that preference. *)
Theorem persisted_agrees_with_preference (es : list event) (s : App)
    (Hwrite : Storage.write_fault (localStorage s) = None)
    (Hselected : selections es ≠ []) :
  Storage.items (localStorage (run es s)) !! THEME_STORAGE_KEY
    = Some (literal (theme (run es s)))
  ∧ (Storage.read_fault (localStorage s) = None →
     ∀ matches classes,
       ∃ s', ThemeProvider (localStorage (run es s)) matches classes
               = Normal s'
             ∧ theme s' = theme (run es s)).
Proof.
  assert (Storage.items (localStorage (run es s)) !! THEME_STORAGE_KEY
            = Some (literal (theme (run es s)))) as Hp.
  { revert s Hwrite Hselected.
    induction es as [|e es IH]; intros s Hw Hs; [done|].
    rewrite run_cons.
    assert (Storage.write_fault (localStorage (step e s)) = None) as Hw'.
    { rewrite step_localStorage. destruct e; try done. by rewrite Hw. }
    destruct e as [|t|b]; [by apply IH| |by apply IH].
    apply run_persisted; [done|].
    rewrite step_localStorage, step_theme, Hw. apply lookup_insert_eq. }
  split; [done|]. intros Hr matches classes.
  destruct (storage_discipline_faults es s) as [Hr' _].
  eexists. split.
  - apply ThemeProvider_readable. by rewrite Hr'.
  - simpl. by rewrite Hp, narrow_literal.
Qed.

Lemma storage_discipline_witness :
  let before := localStorage Examples.fresh_full in
  let after :=
    localStorage (run [Commit; SetTheme dark] Examples.fresh_full) in
  Storage.read_fault after = Storage.read_fault before
  ∧ Storage.write_fault after = Storage.write_fault before
  ∧ (∀ key, key ≠ THEME_STORAGE_KEY →
       Storage.items after !! key = Storage.items before !! key)
  ∧ (Storage.items after !! THEME_STORAGE_KEY
       = Storage.items before !! THEME_STORAGE_KEY
     ∨ ∃ p, Storage.items after !! THEME_STORAGE_KEY = Some (literal p))
  ∧ (is_Some (Storage.write_fault before) → after = before).
Proof.
  exact (storage_discipline [Commit; SetTheme dark] Examples.fresh_full).
Defined.

Lemma persisted_agrees_with_preference_witness :
  let es := [Commit; SetTheme dark; ColorSchemeChange true; SetTheme light] in
  Storage.items (localStorage (run es Examples.fresh)) !! THEME_STORAGE_KEY
    = Some (literal (theme (run es Examples.fresh)))
  ∧ (Storage.read_fault (localStorage Examples.fresh) = None →
     ∀ matches classes,
       ∃ s', ThemeProvider (localStorage (run es Examples.fresh))
                           matches classes = Normal s'
             ∧ theme s' = theme (run es Examples.fresh)).
Proof.
  apply (persisted_agrees_with_preference
           [Commit; SetTheme dark; ColorSchemeChange true; SetTheme light]
           Examples.fresh).
  - reflexivity.
  - vm_compute. discriminate.
Defined.

Lemma setTheme_settled (t : Theme) (s : App) :
  theme s = t → deps s = Some t →
  match Storage.write_fault (localStorage s) with
  | None =>
      Storage.items (localStorage s) !! THEME_STORAGE_KEY = Some (literal t)
  | Some _ => True
  end →
  step (SetTheme t) s = s.
Proof.
  destruct s as [th rt d cf [it rf wf] pd cl li nl rc]. simpl.
  intros -> -> Hi.
  unfold setTheme, Storage.setItem, flushEffects, setThemeState,
    with_localStorage. simpl.
  destruct wf as [e|]; simpl.
  - by rewrite decide_True.
  - rewrite decide_True by done. by rewrite insert_id.
Qed.

(** X8. Selecting the same preference twice in a row is the same as
    selecting it once: the second selection re-runs no effect, adds no
    listener, recomputes nothing and leaves the storage as the first
    left it. *)
Theorem reselecting_is_idempotent (t : Theme) (s : App) :
  step (SetTheme t) (step (SetTheme t) s) = step (SetTheme t) s.
Proof.
  apply setTheme_settled.
  - by rewrite step_theme.
  - simpl. rewrite flushEffects_deps.
    destruct (flushEffects_frame (setTheme t s).1) as (-> & _).
    f_equal. apply setTheme_fst.
  - rewrite step_localStorage.
    destruct (Storage.write_fault (localStorage s)) eqn:Hw; simpl.
    + by rewrite Hw.
    + apply lookup_insert_eq.
Qed.





End ProviderRuns.

(** * Properties of the navigation bar *)

Section NavigationBar.
Import Js Theme Header.

Lemma Header_under_provider (s : App) (outer : list ThemeContextType)
    (pathname : string) (mobileMenuOpen : bool) :
  Header.Header (provider_value s :: outer) pathname mobileMenuOpen =
    Normal {| desktopNav := navLinks pathname;
              themeTrigger := getThemeIcon (theme s) (resolvedTheme s);
              desktopThemeMenu := themeMenu (theme s) setTheme;
              mobileThemeTrigger := getThemeIcon (theme s) (resolvedTheme s);
              mobileThemeMenu := themeMenu (theme s) setTheme;
              mobileButton := if mobileMenuOpen then X else Menu;
              mobileNav := if mobileMenuOpen then Some (navLinks pathname)
                           else None |}.
Proof. done. Qed.

Lemma committed_icon (s : App) :
  reachable s → deps s ≠ None →
  getThemeIcon (theme s) (resolvedTheme s) =
    match theme s with
    | light => Sun
    | dark => Moon
    | system => CircleHalf
    end.
Proof.
  intros Hreach Hd.
  destruct (reachable_inv s Hreach)
    as [_ [(Hn & _)|(id & _ & _ & _ & Hres & _)]]; [done|].
  rewrite Hres. by destruct (theme s).
Qed.



Lemma after_selection (t : Theme) (s : App) :
  reachable s →
  theme (step (SetTheme t) s) = t
  ∧ getThemeIcon t (resolvedTheme (step (SetTheme t) s)) =
      match t with
      | light => Sun
      | dark => Moon
      | system => CircleHalf
      end.
Proof.
  intros Hreach.
  assert (theme (step (SetTheme t) s) = t) as Ht by by rewrite step_theme.
  split; [done|]. rewrite <- Ht at 1 3.
  apply committed_icon; [by apply reachable_step|].
  simpl. by rewrite flushEffects_deps.
Qed.

(** X11. Clicking an entry of the theme menu moves the check mark to
    that entry and to no other, and turns the icon of the theme button
    into the icon of that entry, whatever the reachable state the click
    happens in and whether or not the storage accepts the write. *)
Theorem click_checks_entry (s : App) (pathname : string)
    (mobileMenuOpen : bool) (v : View) (i : nat) (item : MenuItem)
    (Hreach : reachable s)
    (Hrender : Header.Header [provider_value s] pathname mobileMenuOpen
                 = Normal v)
    (Hitem : desktopThemeMenu v !! i = Some item) :
  ∃ v', Header.Header [provider_value (click item s)] pathname mobileMenuOpen
          = Normal v'
      ∧ themeTrigger v' = item_icon item
      ∧ (∀ j item', desktopThemeMenu v' !! j = Some item' →
           item_check item' = bool_decide (j = i))
      ∧ mobileThemeMenu v' = desktopThemeMenu v'
      ∧ mobileThemeTrigger v' = themeTrigger v'.
Proof.
  rewrite Header_under_provider in Hrender.
  injection Hrender as <-. simpl in Hitem.
  eexists. split; [apply Header_under_provider|]. simpl.
  destruct i as [|[|[|i]]]; simpl in Hitem; [| | |done];
    injection Hitem as <-; unfold click; simpl.
  - destruct (after_selection light s Hreach) as [Ht Hi].
    simpl in Ht, Hi. rewrite Ht, Hi. split_and!; try done.
    intros [|[|[|j]]] item' [= <-]; done.
  - destruct (after_selection dark s Hreach) as [Ht Hi].
    simpl in Ht, Hi. rewrite Ht, Hi. split_and!; try done.
    intros [|[|[|j]]] item' [= <-]; done.
  - destruct (after_selection system s Hreach) as [Ht Hi].
    simpl in Ht, Hi. rewrite Ht, Hi. split_and!; try done.
    intros [|[|[|j]]] item' [= <-]; done.
Qed.

Lemma click_checks_entry_witness :
  let s := Session.run [Commit] Examples.fresh_full in
  let item := {| onClick := setTheme dark; item_icon := Moon;
                 item_label := "深色模式";
                 item_check := bool_decide (theme s = dark) |} in
  ∃ v', Header.Header [provider_value (click item s)] "/license" true
          = Normal v'
      ∧ themeTrigger v' = item_icon item
      ∧ (∀ j item', desktopThemeMenu v' !! j = Some item' →
           item_check item' = bool_decide (j = 1))
      ∧ mobileThemeMenu v' = desktopThemeMenu v'
      ∧ mobileThemeTrigger v' = themeTrigger v'.
Proof.
  eapply (click_checks_entry
            (Session.run [Commit] Examples.fresh_full) "/license" true _ 1).
  - apply run_reachable.
    apply (reachable_render Examples.full false ∅). reflexivity.
  - apply Header_under_provider.
  - reflexivity.
Defined.

(** X12. For every location the header marks a navigation link active
    exactly if its path is the pathname of the location, so at most one
    link is marked and none is on a route other than the home and the
    license page; the mobile navigation, shown only while the menu is
    open, marks the same links. *)
Theorem nav_marks_current_route (enclosing : list ThemeContextType)
    (pathname : string) (mobileMenuOpen : bool) (v : View)
    (Hrender : Header.Header enclosing pathname mobileMenuOpen = Normal v) :
  (∀ l, l ∈ desktopNav v → link_active l = true ↔ link_to l = pathname)
  ∧ (length (filter (λ l, link_active l = true) (desktopNav v)) ≤ 1)%nat
  ∧ (pathname ≠ "/" → pathname ≠ "/license" →
     ∀ l, l ∈ desktopNav v → link_active l = false)
  ∧ mobileNav v = (if mobileMenuOpen then Some (desktopNav v) else None)
  ∧ mobileButton v = (if mobileMenuOpen then X else Menu).
Proof.
  unfold Header.Header in Hrender.
  destruct (useTheme enclosing) as [context|e]; [|done].
  injection Hrender as <-. simpl. unfold navLinks, navItems, isActive. simpl.
  split_and!; try done.
  - intros l. rewrite !elem_of_cons, elem_of_nil.
    intros [->|[->|[]]]; simpl; by rewrite String.eqb_eq.
  - destruct (String.eqb_spec pathname "/") as [H1|_],
      (String.eqb_spec pathname "/license") as [H2|_];
      try congruence; vm_compute; lia.
  - intros H1 H2 l. rewrite !elem_of_cons, elem_of_nil.
    intros [->|[->|[]]]; simpl; by apply String.eqb_neq.
Qed.

Lemma nav_marks_current_route_witness :
  let v := {| desktopNav := navLinks "/qqg";
              themeTrigger := Moon;
              desktopThemeMenu := themeMenu dark setTheme;
              mobileThemeTrigger := Moon;
              mobileThemeMenu := themeMenu dark setTheme;
              mobileButton := X;
              mobileNav := Some (navLinks "/qqg") |} in
  (∀ l, l ∈ desktopNav v → link_active l = true ↔ link_to l = "/qqg")
  ∧ (length (filter (λ l, link_active l = true) (desktopNav v)) ≤ 1)%nat
  ∧ ("/qqg" ≠ "/" → "/qqg" ≠ "/license" →
     ∀ l, l ∈ desktopNav v → link_active l = false)
  ∧ mobileNav v = Some (desktopNav v)
  ∧ mobileButton v = X.
Proof.
  apply (nav_marks_current_route
           [provider_value
              (Session.run [Commit; SetTheme dark] Examples.fresh)]
           "/qqg" true).
  reflexivity.
Defined.



End NavigationBar.

(** * Properties of the friend links *)

Section FriendLinks.
Import Footer.

Lemma linkSpans_from (n : Z) (k : nat) (links : list (string * string)) :
  n = Z.of_nat (k + length links) →
  concat (imap (λ i, linkSpan n (k + i)) links) = separated links.
Proof.
  revert k. induction links as [|link rest IH]; intros k Hn; [done|].
  rewrite imap_cons. simpl concat.
  rewrite (imap_ext _ (λ i, linkSpan n (S k + i))); last first.
  { intros i x _. simpl. f_equal. lia. }
  rewrite IH by (simpl in Hn; lia).
  destruct rest as [|link' rest].
  - rewrite bool_decide_eq_false_2; [done|simpl in Hn; lia].
  - rewrite bool_decide_eq_true_2; [done|simpl in Hn; lia].
Qed.

Lemma separated_cons2 (link link' : string * string)
    (rest : list (string * string)) :
  separated (link :: link' :: rest)
  = Anchor link.1 link.2 :: Divider :: separated (link' :: rest).
Proof. done. Qed.

Lemma separated_dividers (links : list (string * string)) :
  length (filter (λ n, is_Divider n = true) (separated links))
  = pred (length links).
Proof.
  induction links as [|link rest IH]; [done|].
  destruct rest as [|link' rest]; [done|].
  rewrite separated_cons2.
  rewrite filter_cons_False by (simpl; done).
  rewrite filter_cons_True by done.
  simpl length in *. by rewrite IH.
Qed.

Lemma separated_last (links : list (string * string)) :
  last (separated links) = (λ link, Anchor link.1 link.2) <$> last links.
Proof.
  induction links as [|link rest IH]; [done|].
  destruct rest as [|link' rest]; [done|].
  rewrite separated_cons2, !last_cons, IH, last_cons.
  by destruct (last rest).
Qed.

(** X14. For any list of links the footer renders one span per link,
    and the spans read in order are the anchors of the links with one
    divider between any two neighbours: one divider fewer than links,
    none for an empty or one-element list, and never a divider after the
    last link. *)
Theorem friend_links_are_separated (links : list (string * string)) :
  length (linkSpans links) = length links
  ∧ concat (linkSpans links) = separated links
  ∧ length (filter (λ n, is_Divider n = true) (concat (linkSpans links)))
    = pred (length links)
  ∧ last (concat (linkSpans links))
    = (λ link, Anchor link.1 link.2) <$> last links.
Proof.
  assert (concat (linkSpans links) = separated links) as Hs.
  { unfold linkSpans. by apply (linkSpans_from _ 0). }
  rewrite Hs. split_and!.
  - apply length_imap.
  - done.
  - apply separated_dividers.
  - apply separated_last.
Qed.

End FriendLinks.

(** * Further properties of the media embed *)

Section PlayerAccounting.
Import Home.

(** No destroyed player is live, and every player constructed is either
    live or destroyed. *)
Lemma page_effect_accounting (r : Refs) (w : Players) :
  inv (MkPage w (Some r)) →
  (∀ h, h ∈ destroyed w → live w !! h = None) →
  size (destroyed w) + size (live w) = constructed w →
  let w' := (effect r w).2 in
  (∀ h, h ∈ destroyed w' → live w' !! h = None)
  ∧ size (destroyed w') + size (live w') = constructed w'.
Proof.
  intros ((c & Hc & Hlv) & Hd & Hl) Hdis Hsize. simpl in *.
  unfold effect. rewrite Hc.
  destruct (playerRef r) as [h|]; simpl; [done|].
  rewrite Hlv in *. split.
  - intros h Hh. rewrite lookup_insert_ne; [done|].
    specialize (Hd h Hh). lia.
  - rewrite insert_empty, map_size_singleton.
    rewrite map_size_empty in Hsize. lia.
Qed.

Lemma page_cleanup_accounting (r : Refs) (w : Players) :
  inv (MkPage w (Some r)) →
  (∀ h, h ∈ destroyed w → live w !! h = None) →
  size (destroyed w) + size (live w) = constructed w →
  let w' := (cleanup r w).2 in
  (∀ h, h ∈ destroyed w' → live w' !! h = None)
  ∧ size (destroyed w') + size (live w') = constructed w'.
Proof.
  intros ((c & Hc & Hlv) & Hd & Hl) Hdis Hsize. simpl in *.
  unfold cleanup. destruct (playerRef r) as [h|]; simpl; [|done].
  rewrite Hlv in *. rewrite delete_singleton_eq.
  assert (h ∉ destroyed w) as Hfresh.
  { intros Hin. specialize (Hdis h Hin).
    by rewrite lookup_singleton_eq in Hdis. }
  split; [done|].
  rewrite size_union by set_solver.
  rewrite size_singleton, map_size_empty.
  rewrite map_size_singleton in Hsize. lia.
Qed.

Lemma page_accounting (p : Page) :
  reachable p →
  (∀ h, h ∈ destroyed (players p) → live (players p) !! h = None)
  ∧ size (destroyed (players p)) + size (live (players p))
    = constructed (players p).
Proof.
  induction 1 as [|e p Hreach [Hdis Hsize]]; [done|].
  pose proof (page_reachable_inv p Hreach) as Hi.
  destruct p as [w [r|]]; destruct e as [c| | |]; simpl in *; try done.
  - pose proof (page_effect_accounting r w Hi Hdis Hsize) as H.
    by destruct (effect r w).
  - pose proof (page_cleanup_accounting r w Hi Hdis Hsize) as H.
    by destruct (cleanup r w).
  - pose proof (page_cleanup_accounting r w Hi Hdis Hsize) as H.
    by destruct (cleanup r w).
  - destruct Hi as (Hlv & Hd & Hl). simpl in *. rewrite Hlv in *. split.
    + intros h Hh. rewrite lookup_insert_ne; [done|].
      specialize (Hd h Hh). lia.
    + rewrite insert_empty, map_size_singleton.
      rewrite map_size_empty in Hsize. lia.
Qed.

(** X15. In every reachable state of the page every player constructed
    so far is either live or destroyed and never both, at most one is
    live, the live one is exactly the handle the mounted view holds, and
    while no view is mounted none is live: all players constructed have
    been destroyed. *)
Theorem players_are_accounted_for (p : Page) (Hreach : reachable p) :
  size (destroyed (players p)) + size (live (players p))
    = constructed (players p)
  ∧ (∀ h, h ∈ destroyed (players p) → live (players p) !! h = None)
  ∧ (size (live (players p)) ≤ 1)%nat
  ∧ (∀ h, held p = Some h ↔ is_Some (live (players p) !! h))
  ∧ (home p = None →
     live (players p) = ∅
     ∧ size (destroyed (players p)) = constructed (players p)).
Proof.
  destruct (page_accounting p Hreach) as [Hdis Hsize].
  destruct (page_reachable_inv p Hreach) as (Hlv & _ & _).
  destruct p as [w [r|]]; unfold held; simpl in *.
  - destruct Hlv as (c & _ & Hlv).
    split_and!; try done; rewrite Hlv; destruct (playerRef r) as [h|].
    + rewrite map_size_singleton. lia.
    + rewrite map_size_empty. lia.
    + intros h'. rewrite lookup_singleton_is_Some. naive_solver.
    + intros h'. rewrite lookup_empty. split; [done|by intros [? ?]].
  - rewrite Hlv in *. rewrite map_size_empty in *.
    split_and!; try done; try lia.
    + intros h. rewrite lookup_empty. split; [done|by intros [? ?]].
    + intros _. split; [done|lia].
Qed.

Lemma players_are_accounted_for_witness :
  let p := step Unmount
             (step RunEffect (step RunCleanup (step (Mount 3) initial))) in
  size (destroyed (players p)) + size (live (players p))
    = constructed (players p)
  ∧ (∀ h, h ∈ destroyed (players p) → live (players p) !! h = None)
  ∧ (size (live (players p)) ≤ 1)%nat
  ∧ (∀ h, held p = Some h ↔ is_Some (live (players p) !! h))
  ∧ (home p = None →
     live (players p) = ∅
     ∧ size (destroyed (players p)) = constructed (players p)).
Proof.
  apply (players_are_accounted_for
           (step Unmount
              (step RunEffect (step RunCleanup (step (Mount 3) initial))))).
  do 4 apply reachable_step. apply reachable_initial.
Defined.

(** X16. A player is destroyed at most once: the handle the view holds
    has not been destroyed, a second run of the cleanup changes nothing,
    and an unmount that follows a cleanup destroys nothing further. *)
Theorem player_destroyed_once (p : Page) (Hreach : reachable p) :
  (∀ h, held p = Some h → h ∉ destroyed (players p))
  ∧ step RunCleanup (step RunCleanup p) = step RunCleanup p
  ∧ players (step Unmount (step RunCleanup p)) = players (step RunCleanup p)
  ∧ held (step RunCleanup p) = None.
Proof.
  destruct (page_accounting p Hreach) as [Hdis _].
  destruct (page_reachable_inv p Hreach) as (Hlv & _ & _).
  destruct p as [w [r|]]; unfold held; simpl in *; [|done].
  destruct Hlv as (c & _ & Hlv). split.
  - intros h Hh Hin. specialize (Hdis h Hin).
    by rewrite Hlv, Hh, lookup_singleton_eq in Hdis.
  - unfold cleanup. destruct (playerRef r) eqn:Hp; simpl; [done|].
    by rewrite Hp.
Qed.

Lemma player_destroyed_once_witness :
  let p := step (Mount 3) initial in
  (∀ h, held p = Some h → h ∉ destroyed (players p))
  ∧ step RunCleanup (step RunCleanup p) = step RunCleanup p
  ∧ players (step Unmount (step RunCleanup p)) = players (step RunCleanup p)
  ∧ held (step RunCleanup p) = None.
Proof.
  apply (player_destroyed_once (step (Mount 3) initial)).
  apply reachable_step. apply reachable_initial.
Defined.

(** X17. When the cleanup and then the effect run again while the view
    stays mounted, as React does for a development double invocation,
    the player is replaced: the old handle is destroyed, the view holds a
    new handle that was never destroyed, and that is the only live
    player, rendering into the same container. *)
Theorem effect_replay_replaces_player (p : Page) (h : nat)
    (Hreach : reachable p) (Hheld : held p = Some h) :
  let p' := step RunEffect (step RunCleanup p) in
  ∃ h' container,
    held p' = Some h'
    ∧ h' ≠ h
    ∧ h ∈ destroyed (players p')
    ∧ (h' ∉ destroyed (players p'))
    ∧ live (players p) = {[ h := container ]}
    ∧ live (players p') = {[ h' := container ]}
    ∧ constructed (players p') = S (constructed (players p)).
Proof.
  destruct (page_accounting p Hreach) as [Hdis _].
  destruct (page_reachable_inv p Hreach) as (Hlv & Hd & Hl).
  destruct p as [w [r|]]; unfold held in *; simpl in *; [|done].
  destruct Hlv as (c & Hc & Hlv). rewrite Hheld in Hlv.
  assert (h < constructed w) as Hlt.
  { apply (Hl h c). rewrite Hlv. apply lookup_singleton_eq. }
  unfold cleanup. rewrite Hheld. simpl.
  unfold effect. simpl. rewrite Hc. simpl.
  exists (constructed w), c. split_and!; try done.
  - lia.
  - apply elem_of_union_l. by apply elem_of_singleton.
  - intros [Heq%elem_of_singleton|Hin]%elem_of_union; [lia|].
    specialize (Hd _ Hin). lia.
  - rewrite Hlv, delete_singleton_eq. by rewrite insert_empty.
Qed.

Lemma effect_replay_replaces_player_witness :
  let p := step (Mount 3) initial in
  let p' := step RunEffect (step RunCleanup p) in
  ∃ h' container,
    held p' = Some h'
    ∧ h' ≠ 0
    ∧ 0 ∈ destroyed (players p')
    ∧ (h' ∉ destroyed (players p'))
    ∧ live (players p) = {[ 0 := container ]}
    ∧ live (players p') = {[ h' := container ]}
    ∧ constructed (players p') = S (constructed (players p)).
Proof.
  apply (effect_replay_replaces_player (step (Mount 3) initial) 0).
  - apply reachable_step. apply reachable_initial.
  - reflexivity.
Defined.

End PlayerAccounting.
